(** * Mohr's circle for strain: the visualisation component of [src/main.tsx]

    The component [MohrCircleVisualization] keeps the three strains, the
    sweep angle, the play / pause flag and a timestamp ref, derives the circle
    and the current point from them, and advances the angle on every
    animation frame.

    JavaScript numbers are embedded as [number]: NaN, the two infinities and
    the finite values, the latter taken as mathematical reals.  Rounding to
    binary64 and the sign of zero are not tracked: on finite values the
    operators and the [Math] functions are the exact real ones (no rounding,
    no overflow to Infinity, no underflow to 0) and [Math.PI] is the real
    number pi.  What is proved below are formulas as the code evaluates
    them, bounds, signs and facts about the structure of the state; exact
    identities that binary64 rounding breaks are left out. *)

From Stdlib Require Import Reals Lra Lia ZArith Bool String Ascii List.
Import ListNotations.
Local Open Scope R_scope.

(** ** JavaScript numbers *)

Inductive number : Type :=
| NaN
| Infinity (negative : bool)
| Fin (r : R).

(** Sign of a finite value: [Some true] negative, [Some false] positive,
    [None] zero. *)
Definition sign (r : R) : option bool :=
  if Rlt_dec r 0 then Some true
  else if Rlt_dec 0 r then Some false
  else None.

Definition add (x y : number) : number :=
  match x, y with
  | NaN, _ | _, NaN => NaN
  | Infinity a, Infinity b => if Bool.eqb a b then Infinity a else NaN
  | Infinity a, Fin _ => Infinity a
  | Fin _, Infinity b => Infinity b
  | Fin a, Fin b => Fin (a + b)
  end.

Definition neg (x : number) : number :=
  match x with
  | NaN => NaN
  | Infinity a => Infinity (negb a)
  | Fin a => Fin (- a)
  end.

Definition sub (x y : number) : number :=
  match x, y with
  | NaN, _ | _, NaN => NaN
  | Infinity a, Infinity b => if Bool.eqb a b then NaN else Infinity a
  | Infinity a, Fin _ => Infinity a
  | Fin _, Infinity b => Infinity (negb b)
  | Fin a, Fin b => Fin (a - b)
  end.

Definition mul (x y : number) : number :=
  match x, y with
  | NaN, _ | _, NaN => NaN
  | Infinity a, Infinity b => Infinity (xorb a b)
  | Infinity a, Fin r | Fin r, Infinity a =>
      match sign r with
      | Some s => Infinity (xorb a s)
      | None => NaN
      end
  | Fin a, Fin b => Fin (a * b)
  end.

Definition div (x y : number) : number :=
  match x, y with
  | NaN, _ | _, NaN => NaN
  | Infinity _, Infinity _ => NaN
  | Infinity a, Fin r =>
      match sign r with
      | Some s => Infinity (xorb a s)
      | None => Infinity a
      end
  | Fin _, Infinity _ => Fin 0
  | Fin a, Fin b =>
      if Req_dec_T b 0
      then match sign a with
           | Some s => Infinity s
           | None => NaN
           end
      else Fin (a / b)
  end.

(** Truncation toward zero, and the remainder [n - d * trunc (n / d)] that
    the [%] operator computes: its sign follows the dividend. *)
Definition Rtrunc (x : R) : Z :=
  if Rle_dec 0 x then Int_part x else (- Int_part (- x))%Z.

Definition Rrem (n d : R) : R := n - d * IZR (Rtrunc (n / d)).

Definition rem (n d : number) : number :=
  match n, d with
  | NaN, _ | _, NaN => NaN
  | Infinity _, _ => NaN
  | Fin a, Infinity _ => Fin a
  | Fin a, Fin b => if Req_dec_T b 0 then NaN else Fin (Rrem a b)
  end.

Definition isNaN (x : number) : bool :=
  match x with
  | NaN => true
  | _ => false
  end.

(** [!x] on a number: true for NaN and for zero. *)
Definition falsy (x : number) : bool :=
  match x with
  | NaN => true
  | Infinity _ => false
  | Fin r => if Req_dec_T r 0 then true else false
  end.

Module Math.

Definition PI : number := Fin Rtrigo1.PI.

Definition sqrt (x : number) : number :=
  match x with
  | NaN => NaN
  | Infinity negative => if negative then NaN else Infinity false
  | Fin r => if Rlt_dec r 0 then NaN else Fin (R_sqrt.sqrt r)
  end.

(** [Math.pow] at the non-negative integer exponents the component uses. *)
Definition pow (base : number) (exponent : nat) : number :=
  match exponent with
  | O => Fin 1
  | S _ =>
      match base with
      | NaN => NaN
      | Infinity negative => Infinity (negative && Nat.odd exponent)
      | Fin r => Fin (r ^ exponent)
      end
  end.

Definition cos (x : number) : number :=
  match x with
  | Fin r => Fin (Rtrigo_def.cos r)
  | _ => NaN
  end.

Definition sin (x : number) : number :=
  match x with
  | Fin r => Fin (Rtrigo_def.sin r)
  | _ => NaN
  end.

Definition min (x y : number) : number :=
  match x, y with
  | NaN, _ | _, NaN => NaN
  | Infinity true, _ | _, Infinity true => Infinity true
  | Infinity false, z | z, Infinity false => z
  | Fin a, Fin b => Fin (Rmin a b)
  end.

End Math.

(** ** Component state *)

Record Strains : Type := mkStrains {
  normalX : number;
  normalY : number;
  shearXY : number
}.

Record Circle : Type := mkCircle {
  center : number;
  radius : number
}.

Record CurrentStrains : Type := mkCurrentStrains {
  normal : number;
  shear : number
}.

(** ** Geometry *)

Definition calculateMohrCircle (strains : Strains) : Circle :=
  let center := div (add (normalX strains) (normalY strains)) (Fin 2) in
  let radius :=
    Math.sqrt (add (Math.pow (div (sub (normalX strains) (normalY strains)) (Fin 2)) 2)
                   (Math.pow (shearXY strains) 2)) in
  {| center := center; radius := radius |}.

(** The body of [calculateCurrentStrains] once the circle is destructured. *)
Definition pointOnCircle (circle : Circle) (angle : number) : CurrentStrains :=
  let normal := add (center circle) (mul (radius circle) (Math.cos angle)) in
  let shear := mul (radius circle) (Math.sin angle) in
  {| normal := normal; shear := shear |}.

Definition calculateCurrentStrains (strains : Strains) (angle : number)
  : CurrentStrains :=
  pointOnCircle (calculateMohrCircle strains) angle.

(** ** Edit handler *)

(** [parseFloat]: leading white space is skipped, then the longest prefix
    that is a [StrDecimalLiteral] is read; NaN when there is none.  Strings
    are byte strings, so only the ASCII white space is recognised; the value
    of a decimal literal is the exact decimal (not rounded to binary64, and
    never overflowing to Infinity). *)

Definition isWhiteSpace (c : ascii) : bool :=
  let n := nat_of_ascii c in
  ((n =? 9) || (n =? 10) || (n =? 11) || (n =? 12) || (n =? 13) || (n =? 32))%nat.

Fixpoint trimStart (s : string) : string :=
  match s with
  | String c rest => if isWhiteSpace c then trimStart rest else s
  | EmptyString => s
  end.

Definition digitValue (c : ascii) : option Z :=
  let n := Z.of_nat (nat_of_ascii c) in
  if ((48 <=? n) && (n <=? 57))%Z then Some (n - 48)%Z else None.

(** Reads digits onto [value]; returns the value, the number of digits read
    and the rest of the input. *)
Fixpoint DecimalDigits (s : string) (value count : Z) : Z * Z * string :=
  match s with
  | String c rest =>
      match digitValue c with
      | Some d => DecimalDigits rest (10 * value + d)%Z (count + 1)%Z
      | None => (value, count, s)
      end
  | EmptyString => (value, count, s)
  end.

(** The exponent, 0 when no well-formed exponent part follows. *)
Definition ExponentPart (s : string) : Z :=
  match s with
  | String c rest =>
      if (Ascii.eqb c "e" || Ascii.eqb c "E")%bool then
        let '(negative, rest') :=
          match rest with
          | String "+" r => (false, r)
          | String "-" r => (true, r)
          | _ => (false, rest)
          end in
        let '(v, n, _) := DecimalDigits rest' 0 0 in
        if (n =? 0)%Z then 0%Z else if negative then (- v)%Z else v
      else 0%Z
  | EmptyString => 0%Z
  end.

Inductive literal : Type :=
| LitInfinity
| LitDecimal (mantissa exponent : Z).

Definition StrUnsignedDecimalLiteral (s : string) : option literal :=
  if prefix "Infinity" s then Some LitInfinity
  else
    let '(i, ni, r1) := DecimalDigits s 0 0 in
    match r1 with
    | String "." r2 =>
        let '(m, nf, r3) := DecimalDigits r2 i 0 in
        if ((ni =? 0) && (nf =? 0))%Z then None
        else Some (LitDecimal m (ExponentPart r3 - nf))
    | _ => if (ni =? 0)%Z then None else Some (LitDecimal i (ExponentPart r1))
    end.

Definition parseFloat (inputString : string) : number :=
  let trimmed := trimStart inputString in
  let '(negative, body) :=
    match trimmed with
    | String "+" r => (false, r)
    | String "-" r => (true, r)
    | _ => (false, trimmed)
    end in
  match StrUnsignedDecimalLiteral body with
  | None => NaN
  | Some LitInfinity => Infinity negative
  | Some (LitDecimal m e) =>
      let v := Fin (IZR m * powerRZ 10 e) in
      if negative then neg v else v
  end.

Inductive Field : Type := FnormalX | FnormalY | FshearXY.

Definition getField (field : Field) (s : Strains) : number :=
  match field with
  | FnormalX => normalX s
  | FnormalY => normalY s
  | FshearXY => shearXY s
  end.

(** [{ ...prev, [field]: value }] *)
Definition setField (field : Field) (value : number) (prev : Strains) : Strains :=
  match field with
  | FnormalX => mkStrains value (normalY prev) (shearXY prev)
  | FnormalY => mkStrains (normalX prev) value (shearXY prev)
  | FshearXY => mkStrains (normalX prev) (normalY prev) value
  end.

(** [text] is [e.target.value]. *)
Definition handleInputChange (text : string) (field : Field) (prev : Strains)
  : Strains :=
  let value := parseFloat text in
  setField field (if isNaN value then Fin 0 else value) prev.

(** ** Sweep controller *)

(** [frameRequested] tells whether a callback registered with
    [requestAnimationFrame] is pending; [animationRef] holds its handle. *)
Record State : Type := mkState {
  isAnimating : bool;
  strains : Strains;
  currentStrains : CurrentStrains;
  angle : number;
  lastUpdateTimeRef : number;
  frameRequested : bool
}.

Definition CIRCLE_DURATION : number := Fin 30000.
Definition ANGLE_PER_MS : number := div (mul (Fin 2) Math.PI) CIRCLE_DURATION.

(** The values given to [useState] and [useRef]. *)
Definition initial : State :=
  {| isAnimating := true;
     strains := {| normalX := Fin 2.0; normalY := Fin 0.2;
                   shearXY := div (Fin 1.81) (Fin 2) |};
     currentStrains := {| normal := Fin 0; shear := Fin 0 |};
     angle := div (mul (Fin (-2.38)) Math.PI) (Fin 180);
     lastUpdateTimeRef := Fin 0;
     frameRequested := false |}.

(** State effect of [drawMohrCircle] on an attached canvas: it publishes
    the current point. *)
Definition drawMohrCircle (s : State) : State :=
  mkState (isAnimating s) (strains s)
          (calculateCurrentStrains (strains s) (angle s))
          (angle s) (lastUpdateTimeRef s) (frameRequested s).

Definition animate (timestamp : number) (s : State) : State :=
  if negb (isAnimating s) then s
  else
    let last :=
      if falsy (lastUpdateTimeRef s) then timestamp else lastUpdateTimeRef s in
    let deltaTime := sub timestamp last in
    let angleChange := mul ANGLE_PER_MS deltaTime in
    mkState (isAnimating s) (strains s) (currentStrains s)
            (rem (add (angle s) angleChange) (mul (Fin 2) Math.PI))
            timestamp
            true.

Definition cancelAnimationFrame (s : State) : State :=
  mkState (isAnimating s) (strains s) (currentStrains s) (angle s)
          (lastUpdateTimeRef s) false.

(** The effect that depends on [isAnimating]. *)
Definition animationEffect (s : State) : State :=
  if isAnimating s
  then mkState (isAnimating s) (strains s) (currentStrains s) (angle s)
               (Fin 0) true
  else cancelAnimationFrame s.

(** The component once its effects have run for the first time. *)
Definition mounted : State := animationEffect (drawMohrCircle initial).

(** The button's [onClick]: the flag is negated, the effect's clean-up
    cancels the pending frame and the effect runs again. *)
Definition togglePlay (s : State) : State :=
  animationEffect
    (cancelAnimationFrame
       (mkState (negb (isAnimating s)) (strains s) (currentStrains s)
                (angle s) (lastUpdateTimeRef s) (frameRequested s))).

Inductive Event : Type :=
| Frame (timestamp : R)
| Click
| Change (field : Field) (text : string).

(** A frame callback runs only if one is pending; the draw effect follows
    every change of [angle] or [strains]. *)
Definition handle (s : State) (e : Event) : State :=
  match e with
  | Frame t =>
      if frameRequested s
      then drawMohrCircle (animate (Fin t) (cancelAnimationFrame s))
      else s
  | Click => togglePlay s
  | Change field text =>
      drawMohrCircle
        (mkState (isAnimating s) (handleInputChange text field (strains s))
                 (currentStrains s) (angle s) (lastUpdateTimeRef s)
                 (frameRequested s))
  end.

Definition run (events : list Event) (s : State) : State :=
  fold_left handle events s.

Definition reachable (s : State) : Prop :=
  exists events, s = run events mounted.

(** The invariant of the reachable states: the angle is finite and
    strictly between -2 PI and 2 PI, the timestamp marker is finite, and a
    frame is pending only while playing. *)
Definition angle_bounded (x : number) : Prop :=
  exists a : R, x = Fin a /\ - (2 * PI) < a < 2 * PI.

Definition invariant (s : State) : Prop :=
  angle_bounded (angle s)
  /\ (exists l : R, lastUpdateTimeRef s = Fin l)
  /\ (frameRequested s = true -> isAnimating s = true).

(** ** Rendering *)

(** What a number is never allowed to be as the radius of [arc]: a finite
    negative value raises IndexSizeError, anything else is drawn or
    ignored. *)
Definition never_negative (x : number) : Prop :=
  match x with
  | NaN => True
  | Infinity negative => negative = false
  | Fin r => 0 <= r
  end.

Record Canvas : Type := mkCanvas {
  width : number;
  height : number
}.

(** The calls and assignments made on the 2D context, in order. *)
Inductive CanvasOp : Type :=
| clearRect (x y w h : number)
| translate (x y : number)
| beginPath
| strokeStyle (value : string)
| lineWidth (value : number)
| moveTo (x y : number)
| lineTo (x y : number)
| stroke
| font (value : string)
| fillStyle (value : string)
| fillText (text : string) (x y : number)
| save
| rotate (angle : number)
| restore
| arc (x y radius startAngle endAngle : number)
| setLineDash (segments : list number)
| fill
| setTransform (a b c d e f : number).

(** An operation that is not an [arc] with a negative radius. *)
Definition arc_radius_ok (op : CanvasOp) : Prop :=
  match op with
  | arc _ _ radius _ _ => never_negative radius
  | _ => True
  end.

(** The drawing done by [drawMohrCircle] with the given strains and angle
    in scope; nothing is drawn while the canvas ref is empty. *)
Definition drawMohrCircle_ops
  (canvasRef : option Canvas) (strains : Strains) (angle : number)
  : list CanvasOp :=
  match canvasRef with
  | None => []
  | Some canvas =>
      let width := width canvas in
      let height := height canvas in
      let scale := div (Math.min width height) (Fin 4) in
      let circle := calculateMohrCircle strains in
      let pointX :=
        add (mul (center circle) scale)
            (mul (mul (radius circle) scale) (Math.cos angle)) in
      let pointY := mul (mul (radius circle) scale) (Math.sin angle) in
      [ clearRect (Fin 0) (Fin 0) width height;
        translate (div width (Fin 2)) (div height (Fin 2));
        beginPath;
        strokeStyle "#666";
        lineWidth (Fin 1);
        moveTo (div (neg width) (Fin 2)) (Fin 0);
        lineTo (div width (Fin 2)) (Fin 0);
        moveTo (Fin 0) (div (neg height) (Fin 2));
        lineTo (Fin 0) (div height (Fin 2));
        stroke;
        font "16px Arial";
        fillStyle "#666";
        fillText "Normal Strain (ε)" (sub (div width (Fin 2)) (Fin 120)) (Fin 25);
        save;
        rotate (div (neg Math.PI) (Fin 2));
        fillText "Shear Strain (γ/2)" (sub (div height (Fin 2)) (Fin 120))
                 (Fin (-10));
        restore;
        beginPath;
        strokeStyle "#3b82f6";
        lineWidth (Fin 2);
        arc (mul (center circle) scale) (Fin 0) (mul (radius circle) scale)
            (Fin 0) (mul (Fin 2) Math.PI);
        stroke;
        beginPath;
        strokeStyle "#ef4444";
        setLineDash [Fin 4; Fin 4];
        moveTo (mul (center circle) scale) (Fin 0);
        lineTo pointX pointY;
        stroke;
        setLineDash [];
        beginPath;
        fillStyle "#ef4444";
        arc pointX pointY (Fin 6) (Fin 0) (mul (Fin 2) Math.PI);
        fill;
        setTransform (Fin 1) (Fin 0) (Fin 0) (Fin 1) (Fin 0) (Fin 0) ]
  end.

(** Effect of [updateCanvasSize] on the component state; the dimensions it
    assigns to the canvas live in the DOM.  The resize listener is
    registered once, by the effect with no dependencies, so the
    [drawMohrCircle] it calls is the one of the first render, with the
    initial strains and angle in scope.  [attached] tells whether both the
    canvas ref and the container ref are set. *)
Definition updateCanvasSize (attached : bool) (s : State) : State :=
  if attached
  then mkState (isAnimating s) (strains s)
               (calculateCurrentStrains (strains initial) (angle initial))
               (angle s) (lastUpdateTimeRef s) (frameRequested s)
  else s.

(** The readouts of the results table before [toFixed], and the label of
    the button. *)
Definition angleReadout (s : State) : number :=
  div (mul (angle s) (Fin 180)) Math.PI.

Definition shearAngleReadout (s : State) : number :=
  add (div (mul (angle s) (Fin 180)) Math.PI) (Fin 90).

Definition buttonLabel (s : State) : string :=
  if isAnimating s then "Pause" else "Continue".

(** Number of clicks on the button among the events. *)
Fixpoint clicks (events : list Event) : nat :=
  match events with
  | [] => O
  | Click :: rest => S (clicks rest)
  | _ :: rest => clicks rest
  end.

Definition isClick (e : Event) : bool :=
  match e with
  | Click => true
  | _ => false
  end.

(** * Properties *)

(** ** Arithmetic on finite numbers *)

Lemma div_Fin (a b : R) : b <> 0 -> div (Fin a) (Fin b) = Fin (a / b).
Proof.
  intros Hb. unfold div.
  destruct (Req_dec_T b 0) as [E | _]; [contradiction | reflexivity].
Qed.

Lemma sqrt_Fin (r : R) : 0 <= r -> Math.sqrt (Fin r) = Fin (sqrt r).
Proof.
  intros Hr. unfold Math.sqrt.
  destruct (Rlt_dec r 0) as [Hlt | _]; [lra | reflexivity].
Qed.

Lemma rem_Fin (a d : R) : d <> 0 -> rem (Fin a) (Fin d) = Fin (Rrem a d).
Proof.
  intros Hd. unfold rem.
  destruct (Req_dec_T d 0) as [E | _]; [contradiction | reflexivity].
Qed.

Lemma falsy_zero : falsy (Fin 0) = true.
Proof.
  unfold falsy. destruct (Req_dec_T 0 0) as [_ | H]; [reflexivity | now elim H].
Qed.

Lemma falsy_nonzero (r : R) : r <> 0 -> falsy (Fin r) = false.
Proof.
  intros Hr. unfold falsy.
  destruct (Req_dec_T r 0) as [E | _]; [contradiction | reflexivity].
Qed.

(** ** The circle *)

Lemma calculateMohrCircle_Fin (x y s : R) :
  calculateMohrCircle (mkStrains (Fin x) (Fin y) (Fin s))
  = mkCircle (Fin ((x + y) / 2)) (Fin (sqrt (((x - y) / 2) ^ 2 + s ^ 2))).
Proof.
  unfold calculateMohrCircle; cbn [normalX normalY shearXY add sub].
  rewrite !div_Fin by lra.
  cbn [Math.pow add].
  rewrite sqrt_Fin; [reflexivity |].
  pose proof (pow2_ge_0 ((x - y) / 2)). pose proof (pow2_ge_0 s). lra.
Qed.

Lemma sqrt_example_bounds :
  1.27633 < sqrt (0.9 ^ 2 + 0.905 ^ 2) < 1.27634.
Proof.
  set (v := 0.9 ^ 2 + 0.905 ^ 2).
  assert (Ev : v = 1.629025) by (unfold v; lra).
  assert (Hv : 0 <= v) by lra.
  pose proof (sqrt_pos v) as Hpos.
  pose proof (sqrt_sqrt v Hv) as Hsq.
  generalize dependent (sqrt v); intros r Hpos Hsq.
  split; nra.
Qed.

Lemma initial_strains :
  strains initial = mkStrains (Fin 2.0) (Fin 0.2) (Fin 0.905).
Proof.
  cbn [strains initial]. rewrite div_Fin by lra.
  do 2 f_equal. lra.
Qed.

Lemma calculateMohrCircle_example :
  calculateMohrCircle (mkStrains (Fin 2.0) (Fin 0.2) (Fin 0.905))
  = mkCircle (Fin 1.1) (Fin (sqrt (0.9 ^ 2 + 0.905 ^ 2))).
Proof.
  rewrite calculateMohrCircle_Fin. f_equal; f_equal; [lra |].
  f_equal. lra.
Qed.

(** C1 (amended): on finite strains [calculateMohrCircle] returns
    center = (normalX + normalY) / 2 and
    radius = sqrt (((normalX - normalY) / 2)^2 + shearXY^2); for
    normalX = 2.0, normalY = 0.2, shearXY = 0.905 the center is 1.1 and the
    radius is sqrt (0.9^2 + 0.905^2), which is 1.2763 to four decimals. *)
Theorem calculateMohrCircle_center_radius :
  (forall x y s : R,
      calculateMohrCircle (mkStrains (Fin x) (Fin y) (Fin s))
      = mkCircle (Fin ((x + y) / 2))
                 (Fin (sqrt (((x - y) / 2) ^ 2 + s ^ 2))))
  /\ calculateMohrCircle (mkStrains (Fin 2.0) (Fin 0.2) (Fin 0.905))
     = mkCircle (Fin 1.1) (Fin (sqrt (0.9 ^ 2 + 0.905 ^ 2)))
  /\ Rabs (sqrt (0.9 ^ 2 + 0.905 ^ 2) - 1.2763) < 0.00005.
Proof.
  split; [exact calculateMohrCircle_Fin |].
  split; [exact calculateMohrCircle_example |].
  pose proof sqrt_example_bounds as [Hlo Hhi].
  apply Rabs_def1; lra.
Qed.

(** C1 (as stated, refuted): for normalX = 2.0, normalY = 0.2,
    shearXY = 0.905 the radius is not within 0.001 of 1.2776. *)
Lemma calculateMohrCircle_example_radius_not_1_2776 :
  ~ (exists r : R,
        radius (calculateMohrCircle (mkStrains (Fin 2.0) (Fin 0.2) (Fin 0.905)))
        = Fin r
        /\ Rabs (r - 1.2776) <= 0.001).
Proof.
  intros [r [Hr Habs]].
  rewrite calculateMohrCircle_example in Hr. cbn [radius] in Hr.
  assert (E : r = sqrt (0.9 ^ 2 + 0.905 ^ 2)) by congruence.
  subst r. clear Hr.
  pose proof sqrt_example_bounds as [Hlo Hhi].
  assert (Hneg : sqrt (0.9 ^ 2 + 0.905 ^ 2) - 1.2776 < 0) by lra.
  rewrite (Rabs_left _ Hneg) in Habs. lra.
Qed.

(** C9: on finite strains, negative and fractional ones included, the
    radius is a finite number and radius >= 0. *)
Theorem calculateMohrCircle_radius_nonneg (x y s : R) :
  exists r : R,
    radius (calculateMohrCircle (mkStrains (Fin x) (Fin y) (Fin s))) = Fin r
    /\ r >= 0.
Proof.
  rewrite calculateMohrCircle_Fin. cbn [radius].
  eexists; split; [reflexivity |].
  apply Rle_ge, sqrt_pos.
Qed.

(** ** The point on the circle *)

Lemma pointOnCircle_Fin (c r a : R) :
  pointOnCircle (mkCircle (Fin c) (Fin r)) (Fin a)
  = mkCurrentStrains (Fin (c + r * cos a)) (Fin (r * sin a)).
Proof. reflexivity. Qed.

(** C2: on a finite circle and a finite angle [calculateCurrentStrains]
    returns normal = center + radius * cos angle and
    shear = radius * sin angle, whether the circle is given or derived from
    finite strains; with radius 0 it returns the point (center, 0) at every
    angle. *)
Theorem calculateCurrentStrains_parametrization :
  (forall c r a : R,
      pointOnCircle (mkCircle (Fin c) (Fin r)) (Fin a)
      = mkCurrentStrains (Fin (c + r * cos a)) (Fin (r * sin a)))
  /\ (forall x y s a : R,
        let c := (x + y) / 2 in
        let r := sqrt (((x - y) / 2) ^ 2 + s ^ 2) in
        calculateCurrentStrains (mkStrains (Fin x) (Fin y) (Fin s)) (Fin a)
        = mkCurrentStrains (Fin (c + r * cos a)) (Fin (r * sin a)))
  /\ (forall c a : R,
        pointOnCircle (mkCircle (Fin c) (Fin 0)) (Fin a)
        = mkCurrentStrains (Fin c) (Fin 0)).
Proof.
  split; [exact pointOnCircle_Fin |]. split.
  - intros x y s a c r. unfold calculateCurrentStrains.
    rewrite calculateMohrCircle_Fin. apply pointOnCircle_Fin.
  - intros c a. rewrite pointOnCircle_Fin. f_equal; f_equal; ring.
Qed.

(** ** The remainder *)

Lemma Rtrunc_nonneg (x : R) :
  0 <= x -> IZR (Rtrunc x) <= x < IZR (Rtrunc x) + 1.
Proof.
  intros Hx. unfold Rtrunc.
  destruct (Rle_dec 0 x) as [_ | Hn]; [| contradiction].
  destruct (base_Int_part x) as [Hle Hgt]. lra.
Qed.

Lemma Rtrunc_neg (x : R) :
  x < 0 -> x <= IZR (Rtrunc x) < x + 1.
Proof.
  intros Hx. unfold Rtrunc.
  destruct (Rle_dec 0 x) as [Hp | _]; [lra |].
  destruct (base_Int_part (- x)) as [Hle Hgt].
  rewrite opp_IZR. lra.
Qed.

Lemma Rtrunc_small (x : R) : -1 < x < 1 -> Rtrunc x = 0%Z.
Proof.
  intros [Hlo Hhi].
  assert (H : -1 < IZR (Rtrunc x) < 1).
  { destruct (Rle_dec 0 x) as [Hp | Hn].
    - pose proof (Rtrunc_nonneg x Hp). lra.
    - pose proof (Rtrunc_neg x ltac:(lra)). lra. }
  destruct H as [H1 H2].
  apply lt_IZR in H1. apply lt_IZR in H2. lia.
Qed.

Lemma Rrem_quotient (n d : R) :
  d <> 0 -> Rrem n d = d * (n / d - IZR (Rtrunc (n / d))).
Proof. intros Hd. unfold Rrem. field. exact Hd. Qed.

(** The remainder by a positive divisor is smaller than the divisor in
    absolute value and has the sign of the dividend. *)
Lemma Rrem_sign (n d : R) :
  0 < d ->
  (0 <= n -> 0 <= Rrem n d < d) /\ (n <= 0 -> - d < Rrem n d <= 0).
Proof.
  intros Hd.
  rewrite Rrem_quotient by lra.
  assert (Hq : n = d * (n / d)) by (field; lra).
  set (q := n / d) in *.
  split; intros Hn.
  - assert (Hq0 : 0 <= q) by nra.
    pose proof (Rtrunc_nonneg q Hq0). nra.
  - destruct (Req_dec_T q 0) as [E | Hne].
    + rewrite E, (Rtrunc_small 0) by lra. lra.
    + assert (Hq0 : q < 0) by nra.
      pose proof (Rtrunc_neg q Hq0). nra.
Qed.

Lemma Rrem_bound (n d : R) : 0 < d -> - d < Rrem n d < d.
Proof.
  intros Hd. destruct (Rrem_sign n d Hd) as [Hp Hn].
  destruct (Rle_dec 0 n) as [H | H].
  - specialize (Hp H). lra.
  - specialize (Hn ltac:(lra)). lra.
Qed.

Lemma Rrem_small (n d : R) : 0 < d -> - d < n < d -> Rrem n d = n.
Proof.
  intros Hd [Hlo Hhi]. unfold Rrem.
  rewrite Rtrunc_small; [lra |].
  assert (Hq : n = d * (n / d)) by (field; lra).
  split; nra.
Qed.

Lemma two_PI : mul (Fin 2) Math.PI = Fin (2 * PI).
Proof. reflexivity. Qed.

Lemma two_PI_pos : 0 < 2 * PI.
Proof. pose proof PI_RGT_0. lra. Qed.

Lemma rem_two_PI (a : R) : rem (Fin a) (Fin (2 * PI)) = Fin (Rrem a (2 * PI)).
Proof. apply rem_Fin. pose proof two_PI_pos. lra. Qed.

(** Whatever the dividend, [% (2 * Math.PI)] yields NaN or a finite value
    strictly between -2 PI and 2 PI. *)
Lemma rem_two_PI_range (n : number) :
  rem n (Fin (2 * PI)) = NaN
  \/ exists r : R, rem n (Fin (2 * PI)) = Fin r /\ - (2 * PI) < r < 2 * PI.
Proof.
  destruct n as [| negative | a]; [now left .. |].
  right. rewrite rem_two_PI. eexists; split; [reflexivity |].
  apply Rrem_bound, two_PI_pos.
Qed.

(** ** The sweep controller *)

Lemma ANGLE_PER_MS_value : ANGLE_PER_MS = Fin (2 * PI / 30000).
Proof.
  unfold ANGLE_PER_MS, CIRCLE_DURATION. rewrite two_PI.
  apply div_Fin. lra.
Qed.

Lemma initial_angle : angle initial = Fin (-2.38 * PI / 180).
Proof. cbn [angle initial mul Math.PI]. apply div_Fin. lra. Qed.

Lemma initial_angle_negative : -2.38 * PI / 180 < 0.
Proof. pose proof PI_RGT_0. lra. Qed.

(** [animate] while playing with a recorded (non-zero) timestamp [l]. *)
Lemma animate_recorded (s : State) (t l : R) :
  isAnimating s = true ->
  lastUpdateTimeRef s = Fin l -> l <> 0 ->
  animate (Fin t) s
  = mkState true (strains s) (currentStrains s)
            (rem (add (angle s) (mul ANGLE_PER_MS (Fin (t - l))))
                 (mul (Fin 2) Math.PI))
            (Fin t) true.
Proof.
  intros Hplay Hlast Hl. unfold animate.
  rewrite Hplay, Hlast, falsy_nonzero by exact Hl. reflexivity.
Qed.

(** [animate] while playing with no recorded timestamp. *)
Lemma animate_unrecorded (s : State) (t : R) :
  isAnimating s = true ->
  lastUpdateTimeRef s = Fin 0 ->
  animate (Fin t) s
  = mkState true (strains s) (currentStrains s)
            (rem (add (angle s) (mul ANGLE_PER_MS (Fin (t - t))))
                 (mul (Fin 2) Math.PI))
            (Fin t) true.
Proof.
  intros Hplay Hlast. unfold animate.
  rewrite Hplay, Hlast, falsy_zero. reflexivity.
Qed.

(** Adding a zero change and reducing leaves a reduced angle as it is. *)
Lemma rem_zero_change (x : number) (t : R) :
  (x = NaN \/ exists r : R, x = Fin r /\ - (2 * PI) < r < 2 * PI) ->
  rem (add x (mul ANGLE_PER_MS (Fin (t - t)))) (mul (Fin 2) Math.PI) = x.
Proof.
  intros [-> | [r [-> Hr]]]; rewrite ANGLE_PER_MS_value, two_PI.
  - reflexivity.
  - cbn [mul add]. rewrite rem_two_PI. f_equal.
    replace (r + 2 * PI / 30000 * (t - t)) with r by lra.
    apply Rrem_small; [apply two_PI_pos | exact Hr].
Qed.

Lemma invariant_mounted : invariant mounted.
Proof.
  unfold invariant, mounted.
  cbn [animationEffect drawMohrCircle isAnimating initial angle
       lastUpdateTimeRef frameRequested].
  repeat split.
  - exists (-2.38 * PI / 180). split.
    + change (angle initial = Fin (-2.38 * PI / 180)). apply initial_angle.
    + pose proof PI_RGT_0. lra.
  - now exists 0.
Qed.

Lemma invariant_animate (s : State) (t : R) :
  invariant s -> isAnimating s = true -> invariant (animate (Fin t) s).
Proof.
  intros [[a [Ha Hb]] [[l Hl] Hreq]] Hplay.
  assert (E : exists l', animate (Fin t) s
                = mkState true (strains s) (currentStrains s)
                    (rem (add (angle s) (mul ANGLE_PER_MS (Fin (t - l'))))
                         (mul (Fin 2) Math.PI))
                    (Fin t) true).
  { destruct (Req_dec_T l 0) as [-> | Hne].
    - exists t. now apply animate_unrecorded.
    - exists l. now apply animate_recorded. }
  destruct E as [l' ->]. unfold invariant.
  cbn [angle lastUpdateTimeRef frameRequested isAnimating].
  repeat split.
  - rewrite Ha, ANGLE_PER_MS_value, two_PI. cbn [mul add].
    rewrite rem_two_PI. eexists; split; [reflexivity |].
    apply Rrem_bound, two_PI_pos.
  - now exists t.
Qed.

Lemma invariant_handle (s : State) (e : Event) :
  invariant s -> invariant (handle s e).
Proof.
  intros Hinv. destruct e as [t | | field text]; cbn [handle].
  - destruct (frameRequested s) eqn:Hreq; [| exact Hinv].
    assert (Hplay : isAnimating s = true) by now apply Hinv.
    assert (Hc : invariant (cancelAnimationFrame s)).
    { destruct Hinv as [Ha [Hl _]]. unfold invariant.
      cbn [cancelAnimationFrame angle lastUpdateTimeRef frameRequested].
      repeat split; [exact Ha | exact Hl | discriminate]. }
    apply (invariant_animate _ t) in Hc; [| exact Hplay].
    destruct Hc as [Ha [Hl Hr]]. unfold invariant.
    cbn [drawMohrCircle angle lastUpdateTimeRef frameRequested isAnimating].
    repeat split; assumption.
  - destruct Hinv as [Ha [Hl _]].
    unfold togglePlay, animationEffect, invariant.
    cbn [cancelAnimationFrame isAnimating strains currentStrains angle
         lastUpdateTimeRef frameRequested].
    destruct (negb (isAnimating s));
      cbn [angle lastUpdateTimeRef frameRequested isAnimating];
      repeat split; try assumption; try discriminate.
    now exists 0.
  - exact Hinv.
Qed.

Lemma invariant_run (events : list Event) (s : State) :
  invariant s -> invariant (run events s).
Proof.
  revert s. induction events as [| e events IH]; intros s Hinv.
  - exact Hinv.
  - cbn [run fold_left]. apply IH, invariant_handle, Hinv.
Qed.

Lemma invariant_reachable (s : State) : reachable s -> invariant s.
Proof.
  intros [events ->]. apply invariant_run, invariant_mounted.
Qed.

(** C3 (amended): at every reachable state the stored angle is a finite
    number strictly between -2 PI and 2 PI. *)
Theorem reachable_angle_bounded (s : State) :
  reachable s ->
  exists a : R, angle s = Fin a /\ - (2 * PI) < a < 2 * PI.
Proof.
  intros Hs. apply invariant_reachable in Hs. apply Hs.
Qed.

Lemma reachable_angle_bounded_witness :
  exists a : R,
    angle (run [Frame 1000; Frame 1016] mounted) = Fin a
    /\ - (2 * PI) < a < 2 * PI.
Proof.
  apply (reachable_angle_bounded (run [Frame 1000; Frame 1016] mounted)).
  exists [Frame 1000; Frame 1016]. reflexivity.
Defined.

(** A frame of a playing component with a pending request. *)
Lemma handle_Frame_playing (s : State) (t : R) :
  frameRequested s = true ->
  handle s (Frame t) = drawMohrCircle (animate (Fin t) (cancelAnimationFrame s)).
Proof. intros Hreq. cbn [handle]. now rewrite Hreq. Qed.

Lemma angle_after_first_frame (t : R) :
  handle mounted (Frame t)
  = mkState true (strains initial)
            (calculateCurrentStrains (strains initial) (Fin (-2.38 * PI / 180)))
            (Fin (-2.38 * PI / 180)) (Fin t) true.
Proof.
  rewrite handle_Frame_playing by reflexivity.
  rewrite animate_unrecorded by reflexivity.
  cbn [cancelAnimationFrame mounted animationEffect drawMohrCircle angle
       isAnimating strains currentStrains lastUpdateTimeRef frameRequested
       initial].
  change (div (mul (Fin (-2.38)) Math.PI) (Fin 180)) with (angle initial).
  rewrite initial_angle, rem_zero_change; [reflexivity |].
  right. eexists; split; [reflexivity |].
  pose proof PI_RGT_0. lra.
Qed.

(** C3 (as stated, refuted): after the frames at 1000 ms and 1016 ms the
    component is in a reachable state whose angle is negative, as it is
    when mounted; it is not in [0, 2 PI). *)
Lemma angle_negative_after_frames :
  let s := run [Frame 1000; Frame 1016] mounted in
  reachable s
  /\ angle mounted = Fin (-2.38 * PI / 180)
  /\ angle s = Fin (-2.38 * PI / 180 + 2 * PI / 30000 * (1016 - 1000))
  /\ ~ (exists a : R, angle s = Fin a /\ 0 <= a < 2 * PI).
Proof.
  intros s.
  assert (Hs : angle s
               = Fin (-2.38 * PI / 180 + 2 * PI / 30000 * (1016 - 1000))).
  { unfold s. cbn [run fold_left].
    rewrite angle_after_first_frame.
    rewrite handle_Frame_playing by reflexivity.
    rewrite (animate_recorded _ 1016 1000) by (reflexivity || lra).
    cbn [drawMohrCircle angle cancelAnimationFrame].
    rewrite ANGLE_PER_MS_value, two_PI. cbn [mul add].
    rewrite rem_two_PI. f_equal.
    apply Rrem_small; [apply two_PI_pos |].
    pose proof PI_RGT_0. lra. }
  split; [| split; [| split]].
  - exists [Frame 1000; Frame 1016]. reflexivity.
  - apply initial_angle.
  - exact Hs.
  - intros [a [Ha [Hlo _]]]. rewrite Hs in Ha.
    assert (E : a = -2.38 * PI / 180 + 2 * PI / 30000 * (1016 - 1000))
      by congruence.
    pose proof PI_RGT_0. lra.
Qed.

(** C4 (amended): a frame while playing with a recorded timestamp [l]
    stores (angle + ANGLE_PER_MS * deltaTime) % (2 PI), with
    ANGLE_PER_MS = 2 PI / 30000; for deltaTime = 30000 the advance is 2 PI,
    and the stored angle then lies in [0, 2 PI) for every start between
    -2 PI and 2 PI, so that a negative start is not restored. *)
Theorem animate_advance (s : State) (t l a : R) :
  isAnimating s = true ->
  lastUpdateTimeRef s = Fin l -> l <> 0 ->
  angle s = Fin a ->
  angle (animate (Fin t) s)
  = rem (add (Fin a) (mul ANGLE_PER_MS (sub (Fin t) (Fin l))))
        (mul (Fin 2) Math.PI)
  /\ ANGLE_PER_MS = div (mul (Fin 2) Math.PI) (Fin 30000)
  /\ (t - l = 30000 ->
      mul ANGLE_PER_MS (sub (Fin t) (Fin l)) = mul (Fin 2) Math.PI
      /\ (- (2 * PI) < a < 2 * PI ->
          exists a' : R,
            angle (animate (Fin t) s) = Fin a' /\ 0 <= a' < 2 * PI)
      /\ (- (2 * PI) < a < 0 -> angle (animate (Fin t) s) <> angle s)).
Proof.
  intros Hplay Hlast Hl Ha.
  assert (E : angle (animate (Fin t) s)
              = rem (add (Fin a) (mul ANGLE_PER_MS (sub (Fin t) (Fin l))))
                    (mul (Fin 2) Math.PI)).
  { rewrite (animate_recorded s t l) by assumption.
    cbn [angle sub]. now rewrite Ha. }
  split; [exact E |]. split; [reflexivity |].
  intros Hd. pose proof two_PI_pos as Hpos.
  assert (Hturn : mul ANGLE_PER_MS (sub (Fin t) (Fin l)) = mul (Fin 2) Math.PI).
  { rewrite ANGLE_PER_MS_value, two_PI. cbn [sub mul].
    f_equal. rewrite Hd. field. }
  assert (Hrange : - (2 * PI) < a < 2 * PI ->
                   exists a' : R,
                     angle (animate (Fin t) s) = Fin a' /\ 0 <= a' < 2 * PI).
  { intros Hr. rewrite E, Hturn, two_PI. cbn [add].
    rewrite rem_two_PI. eexists; split; [reflexivity |].
    apply (Rrem_sign _ _ Hpos). lra. }
  split; [exact Hturn |]. split; [exact Hrange |].
  intros Hr. destruct (Hrange ltac:(lra)) as [a' [Ha' [Hlo _]]].
  rewrite Ha', Ha. intros Heq.
  assert (a' = a) by congruence. lra.
Qed.

Lemma animate_advance_witness :
  exists a' : R,
    angle (animate (Fin 31000)
             (mkState true (strains initial) (currentStrains initial)
                      (Fin (-1)) (Fin 1000) true))
    = Fin a'
    /\ 0 <= a' < 2 * PI.
Proof.
  apply (animate_advance
           (mkState true (strains initial) (currentStrains initial)
                    (Fin (-1)) (Fin 1000) true) 31000 1000 (-1));
    try reflexivity; try lra.
  pose proof PI2_3_2. lra.
Defined.

(** C4 (as stated, refuted): after the first frame at 1000 ms the mounted
    component is playing with the timestamp 1000 recorded and the seed
    angle; the frame at 31000 ms, 30000 ms later, stores the seed angle plus
    2 PI, not the seed angle. *)
Lemma angle_not_restored_after_period :
  let s := run [Frame 1000] mounted in
  let s' := handle s (Frame 31000) in
  reachable s
  /\ isAnimating s = true
  /\ lastUpdateTimeRef s = Fin 1000
  /\ angle s = Fin (-2.38 * PI / 180)
  /\ angle s' = Fin (-2.38 * PI / 180 + 2 * PI)
  /\ angle s' <> angle s.
Proof.
  intros s s'.
  assert (Es : s = handle mounted (Frame 1000)) by reflexivity.
  assert (Ha : angle s = Fin (-2.38 * PI / 180))
    by (rewrite Es, angle_after_first_frame; reflexivity).
  assert (Ha' : angle s' = Fin (-2.38 * PI / 180 + 2 * PI)).
  { unfold s'. rewrite Es, angle_after_first_frame.
    rewrite handle_Frame_playing by reflexivity.
    rewrite (animate_recorded _ 31000 1000) by (reflexivity || lra).
    cbn [drawMohrCircle angle cancelAnimationFrame].
    rewrite ANGLE_PER_MS_value, two_PI. cbn [mul add].
    rewrite rem_two_PI. f_equal.
    replace (-2.38 * PI / 180 + 2 * PI / 30000 * (31000 - 1000))
      with (-2.38 * PI / 180 + 2 * PI) by field.
    apply Rrem_small; [apply two_PI_pos |].
    pose proof PI_RGT_0. lra. }
  split; [exists [Frame 1000]; reflexivity |].
  split; [reflexivity |]. split; [reflexivity |].
  split; [exact Ha |]. split; [exact Ha' |].
  rewrite Ha, Ha'. intros Heq.
  assert (E : -2.38 * PI / 180 + 2 * PI = -2.38 * PI / 180) by congruence.
  pose proof PI_RGT_0. lra.
Qed.

(** C5: when a paused, reachable component is resumed, the timestamp marker
    is reset to 0; the first frame after that, at time [t], records [t] and
    leaves the angle as it was, and the frame after it (for [t] other than
    0) advances the angle by the time elapsed since [t] only. *)
Theorem resume_first_frame_is_baseline (s : State) (t : R) :
  reachable s ->
  isAnimating s = false ->
  let s1 := handle s Click in
  let s2 := handle s1 (Frame t) in
  isAnimating s1 = true
  /\ lastUpdateTimeRef s1 = Fin 0
  /\ angle s1 = angle s
  /\ lastUpdateTimeRef s2 = Fin t
  /\ angle s2 = angle s
  /\ (t <> 0 ->
      forall t2 : R,
        angle (handle s2 (Frame t2))
        = rem (add (angle s) (mul ANGLE_PER_MS (Fin (t2 - t))))
              (mul (Fin 2) Math.PI)).
Proof.
  intros Hreach Hpaused s1 s2.
  apply invariant_reachable in Hreach. destruct Hreach as [Ha _].
  assert (E1 : s1 = mkState true (strains s) (currentStrains s) (angle s)
                            (Fin 0) true).
  { unfold s1. cbn [handle]. unfold togglePlay, animationEffect.
    cbn [cancelAnimationFrame isAnimating strains currentStrains angle
         lastUpdateTimeRef frameRequested].
    now rewrite Hpaused. }
  assert (E2 : s2 = mkState true (strains s)
                            (calculateCurrentStrains (strains s) (angle s))
                            (angle s) (Fin t) true).
  { unfold s2. rewrite E1.
    rewrite handle_Frame_playing by reflexivity.
    rewrite animate_unrecorded by reflexivity.
    cbn [cancelAnimationFrame drawMohrCircle isAnimating strains
         currentStrains angle lastUpdateTimeRef frameRequested].
    rewrite rem_zero_change; [reflexivity | right; exact Ha]. }
  rewrite E2, E1. cbn [isAnimating lastUpdateTimeRef angle].
  repeat (split; [reflexivity |]).
  intros Ht t2.
  rewrite handle_Frame_playing by reflexivity.
  rewrite (animate_recorded _ t2 t) by (reflexivity || exact Ht).
  reflexivity.
Qed.

Lemma resume_first_frame_is_baseline_witness :
  let s := run [Frame 1000; Frame 2000; Click] mounted in
  let s2 := handle (handle s Click) (Frame 9000) in
  isAnimating s = false
  /\ lastUpdateTimeRef s2 = Fin 9000
  /\ angle s2 = angle s.
Proof.
  intros s s2.
  assert (Hreach : reachable s)
    by (exists [Frame 1000; Frame 2000; Click]; reflexivity).
  assert (Hpaused : isAnimating s = false) by reflexivity.
  pose proof (resume_first_frame_is_baseline s 9000 Hreach Hpaused) as H.
  split; [exact Hpaused |]. split; apply H.
Defined.

(** C10: the marker for no recorded timestamp is the number 0.  A frame at
    timestamp 0 of a playing component leaves the marker at 0, the value the
    effect resets it to on play; the next frame, at any time [t], records
    [t] and leaves the angle as the frame at 0 left it. *)
Theorem animate_timestamp_zero (s : State) (t : R) :
  isAnimating s = true ->
  let s1 := animate (Fin 0) s in
  let s2 := animate (Fin t) s1 in
  lastUpdateTimeRef s1 = Fin 0
  /\ lastUpdateTimeRef s1 = lastUpdateTimeRef (animationEffect s)
  /\ falsy (lastUpdateTimeRef s1) = true
  /\ lastUpdateTimeRef s2 = Fin t
  /\ angle s2 = angle s1.
Proof.
  intros Hplay s1 s2.
  assert (E1 : exists x,
             s1 = mkState true (strains s) (currentStrains s)
                          (rem x (Fin (2 * PI))) (Fin 0) true).
  { unfold s1, animate. rewrite Hplay. cbn [negb].
    eexists. rewrite two_PI. reflexivity. }
  destruct E1 as [x E1].
  assert (E2 : s2 = mkState true (strains s) (currentStrains s)
                            (rem x (Fin (2 * PI))) (Fin t) true).
  { unfold s2. rewrite E1.
    rewrite animate_unrecorded by reflexivity.
    cbn [isAnimating strains currentStrains angle].
    rewrite rem_zero_change; [reflexivity | apply rem_two_PI_range]. }
  rewrite E2, E1. unfold animationEffect. rewrite Hplay.
  cbn [lastUpdateTimeRef angle].
  repeat split. apply falsy_zero.
Qed.

Lemma animate_timestamp_zero_witness :
  let s1 := animate (Fin 0) mounted in
  let s2 := animate (Fin 16) s1 in
  lastUpdateTimeRef s1 = Fin 0
  /\ lastUpdateTimeRef s2 = Fin 16
  /\ angle s2 = angle s1.
Proof.
  intros s1 s2.
  pose proof (animate_timestamp_zero mounted 16 eq_refl) as H.
  split; [apply H |]. split; apply H.
Defined.

(** ** The edit handler *)

Lemma parseFloat_abc : parseFloat "abc" = NaN.
Proof. reflexivity. Qed.

Lemma parseFloat_3_5 : parseFloat "3.5" = Fin 3.5.
Proof. cbv [parseFloat]. simpl. f_equal. lra. Qed.

Lemma getField_setField (field : Field) (value : number) (prev : Strains) :
  getField field (setField field value prev) = value.
Proof. now destruct field. Qed.

(** C6: the edited field becomes 0 when [parseFloat] of the text is NaN
    and the parsed number otherwise; the handler is a total function (no
    error value); "abc" gives 0 and "3.5" gives 3.5. *)
Theorem handleInputChange_parse :
  (forall (text : string) (field : Field) (prev : Strains),
      getField field (handleInputChange text field prev)
      = if isNaN (parseFloat text) then Fin 0 else parseFloat text)
  /\ parseFloat "abc" = NaN
  /\ (forall (field : Field) (prev : Strains),
        getField field (handleInputChange "abc" field prev) = Fin 0)
  /\ parseFloat "3.5" = Fin 3.5
  /\ (forall (field : Field) (prev : Strains),
        getField field (handleInputChange "3.5" field prev) = Fin 3.5).
Proof.
  split; [intros; apply getField_setField |].
  split; [exact parseFloat_abc |].
  split; [intros; unfold handleInputChange;
          now rewrite getField_setField, parseFloat_abc |].
  split; [exact parseFloat_3_5 |].
  intros. unfold handleInputChange.
  now rewrite getField_setField, parseFloat_3_5.
Qed.

(** C7: an edit of one field leaves the two other fields of the strains as
    they were. *)
Theorem handleInputChange_frame
  (text : string) (field other : Field) (prev : Strains) :
  other <> field ->
  getField other (handleInputChange text field prev) = getField other prev.
Proof.
  intros Hne. unfold handleInputChange.
  destruct field, other; try reflexivity; now elim Hne.
Qed.

Lemma handleInputChange_frame_witness :
  getField FnormalY (handleInputChange "3.5" FnormalX (strains initial))
  = getField FnormalY (strains initial)
  /\ getField FshearXY (handleInputChange "3.5" FnormalX (strains initial))
     = getField FshearXY (strains initial).
Proof.
  split; apply handleInputChange_frame; discriminate.
Defined.

(** * Further properties of the geometry *)

Lemma calculateCurrentStrains_Fin (x y s a : R) :
  calculateCurrentStrains (mkStrains (Fin x) (Fin y) (Fin s)) (Fin a)
  = mkCurrentStrains
      (Fin ((x + y) / 2 + sqrt (((x - y) / 2) ^ 2 + s ^ 2) * cos a))
      (Fin (sqrt (((x - y) / 2) ^ 2 + s ^ 2) * sin a)).
Proof.
  unfold calculateCurrentStrains. rewrite calculateMohrCircle_Fin.
  apply pointOnCircle_Fin.
Qed.

(** X3: when normalX = normalY and shearXY = 0 the circle degenerates
    to a point: the radius is 0 and the published point is (center, 0) at
    every angle. *)
Theorem degenerate_circle (x a : R) :
  let strains := mkStrains (Fin x) (Fin x) (Fin 0) in
  radius (calculateMohrCircle strains) = Fin 0
  /\ calculateCurrentStrains strains (Fin a)
     = mkCurrentStrains (center (calculateMohrCircle strains)) (Fin 0).
Proof.
  intros strains. unfold strains, calculateCurrentStrains.
  rewrite calculateMohrCircle_Fin. cbn [radius center].
  assert (E : sqrt (((x - x) / 2) ^ 2 + 0 ^ 2) = 0).
  { replace (((x - x) / 2) ^ 2 + 0 ^ 2) with 0 by (simpl; lra).
    apply sqrt_0. }
  rewrite E. split; [reflexivity |].
  rewrite pointOnCircle_Fin. f_equal; f_equal; ring.
Qed.

(** X6: the circle does not depend on the order of the two normal strains
    nor on the sign of the shear strain. *)
Theorem circle_symmetries (x y s : R) :
  calculateMohrCircle (mkStrains (Fin y) (Fin x) (Fin s))
  = calculateMohrCircle (mkStrains (Fin x) (Fin y) (Fin s))
  /\ calculateMohrCircle (mkStrains (Fin x) (Fin y) (neg (Fin s)))
     = calculateMohrCircle (mkStrains (Fin x) (Fin y) (Fin s)).
Proof.
  cbn [neg]. rewrite !calculateMohrCircle_Fin.
  split; f_equal; f_equal; [lra | f_equal; field | f_equal; field].
Qed.

Lemma never_negative_pow2 (x : number) : never_negative (Math.pow x 2).
Proof.
  destruct x as [| negative | r]; cbn.
  - exact I.
  - apply andb_false_r.
  - nra.
Qed.

Lemma never_negative_add (x y : number) :
  never_negative x -> never_negative y -> never_negative (add x y).
Proof.
  destruct x as [| a | a], y as [| b | b]; cbn; intros Hx Hy;
    try exact I; try assumption.
  - subst. reflexivity.
  - lra.
Qed.

Lemma never_negative_sqrt (x : number) :
  never_negative x -> never_negative (Math.sqrt x).
Proof.
  destruct x as [| a | a]; cbn; intros Hx.
  - exact I.
  - subst. reflexivity.
  - destruct (Rlt_dec a 0); [exact I | apply sqrt_pos].
Qed.

(** X8: whatever the strains are (NaN and infinities included), the
    radius is NaN, +Infinity or a finite value >= 0, never a negative
    number. *)
Theorem radius_never_negative (strains : Strains) :
  never_negative (radius (calculateMohrCircle strains)).
Proof.
  unfold calculateMohrCircle. cbn [radius].
  apply never_negative_sqrt, never_negative_add; apply never_negative_pow2.
Qed.

(** * Further properties of the rendering *)

Lemma never_negative_mul (x y : number) :
  never_negative x -> never_negative y -> never_negative (mul x y).
Proof.
  destruct x as [| a | a], y as [| b | b]; cbn; intros Hx Hy;
    try exact I.
  - subst. reflexivity.
  - subst. unfold sign.
    destruct (Rlt_dec b 0); [lra |].
    destruct (Rlt_dec 0 b); [reflexivity | exact I].
  - subst. unfold sign.
    destruct (Rlt_dec a 0); [lra |].
    destruct (Rlt_dec 0 a); [reflexivity | exact I].
  - nra.
Qed.

Lemma never_negative_scale (canvas : Canvas) :
  never_negative (width canvas) -> never_negative (height canvas) ->
  never_negative (div (Math.min (width canvas) (height canvas)) (Fin 4)).
Proof.
  destruct canvas as [w h]; cbn [width height].
  assert (H4 : sign 4 = Some false).
  { unfold sign. destruct (Rlt_dec 4 0); [lra |].
    destruct (Rlt_dec 0 4); [reflexivity | lra]. }
  destruct w as [| a | a], h as [| b | b]; cbn [never_negative Math.min];
    intros Hw Hh; subst; try exact I;
    try (cbn [div]; rewrite H4; reflexivity).
  all: rewrite div_Fin by lra; cbn [never_negative] in *;
    try (unfold Rmin; destruct (Rle_dec a b)); lra.
Qed.

(** X9: on a canvas whose width and height are not negative, no [arc]
    that [drawMohrCircle] issues has a negative radius, whatever the
    strains and the angle are; so [arc] never raises. *)
Theorem draw_arcs_never_negative
  (canvas : Canvas) (strains : Strains) (angle : number) :
  never_negative (width canvas) -> never_negative (height canvas) ->
  Forall arc_radius_ok (drawMohrCircle_ops (Some canvas) strains angle).
Proof.
  intros Hw Hh. unfold drawMohrCircle_ops.
  repeat (apply Forall_cons; [try exact I |]); try apply Forall_nil.
  - cbn [arc_radius_ok]. apply never_negative_mul.
    + unfold calculateMohrCircle. cbn [radius].
      apply never_negative_sqrt, never_negative_add;
        apply never_negative_pow2.
    + now apply never_negative_scale.
  - cbn. lra.
Qed.

Lemma draw_arcs_never_negative_witness :
  Forall arc_radius_ok
    (drawMohrCircle_ops (Some (mkCanvas (Fin 720) (Fin 360)))
                        (strains initial) (angle initial)).
Proof.
  apply draw_arcs_never_negative; cbn; lra.
Defined.

(** * Further properties of the sweep controller *)

Lemma run_app (events1 events2 : list Event) (s : State) :
  run (events1 ++ events2) s = run events2 (run events1 s).
Proof. apply fold_left_app. Qed.

Lemma reachable_mounted : reachable mounted.
Proof. now exists []. Qed.

Lemma reachable_handle (s : State) (e : Event) :
  reachable s -> reachable (handle s e).
Proof.
  intros [events ->]. exists (events ++ [e]). now rewrite run_app.
Qed.

(** A property of the mounted state that every event preserves holds in
    every reachable state. *)
Lemma reachable_induction (P : State -> Prop) :
  P mounted ->
  (forall s e, P s -> P (handle s e)) ->
  forall s, reachable s -> P s.
Proof.
  intros Hm Hstep s [events ->].
  assert (H : forall s0, P s0 -> P (run events s0)).
  { induction events as [| e events IH]; intros s0 H0; [exact H0 |].
    cbn [run fold_left]. apply IH, Hstep, H0. }
  apply H, Hm.
Qed.

(** X11: after mounting and after every frame, click and edit, the
    published strain pair is the point computed from the current strains
    and the current angle. *)
Theorem published_point_consistent (s : State) :
  reachable s ->
  currentStrains s = calculateCurrentStrains (strains s) (angle s).
Proof.
  revert s. apply reachable_induction; [reflexivity |].
  intros s e H. destruct e as [t | | field text]; cbn [handle].
  - destruct (frameRequested s); [reflexivity | exact H].
  - unfold togglePlay, animationEffect.
    cbn [cancelAnimationFrame isAnimating strains currentStrains angle
         lastUpdateTimeRef frameRequested].
    destruct (negb (isAnimating s)); exact H.
  - reflexivity.
Qed.

Lemma published_point_consistent_witness :
  currentStrains (run [Frame 1000; Change FshearXY "3.5"; Frame 1016] mounted)
  = calculateCurrentStrains
      (strains (run [Frame 1000; Change FshearXY "3.5"; Frame 1016] mounted))
      (angle (run [Frame 1000; Change FshearXY "3.5"; Frame 1016] mounted)).
Proof.
  apply published_point_consistent.
  exists [Frame 1000; Change FshearXY "3.5"; Frame 1016]. reflexivity.
Defined.

(** X12: in every reachable state a frame callback is pending exactly
    when the component is playing: the loop never stalls while playing and
    nothing is left scheduled while paused. *)
Theorem frame_pending_iff_playing (s : State) :
  reachable s -> frameRequested s = isAnimating s.
Proof.
  revert s. apply reachable_induction; [reflexivity |].
  intros s e H. destruct e as [t | | field text]; cbn [handle].
  - destruct (frameRequested s) eqn:Hreq; [| now rewrite Hreq].
    unfold animate. cbn [cancelAnimationFrame isAnimating].
    rewrite <- H. reflexivity.
  - unfold togglePlay, animationEffect.
    cbn [cancelAnimationFrame isAnimating strains currentStrains angle
         lastUpdateTimeRef frameRequested].
    destruct (isAnimating s); reflexivity.
  - exact H.
Qed.

Lemma frame_pending_iff_playing_witness :
  frameRequested (run [Frame 1000; Click; Frame 5000] mounted)
  = isAnimating (run [Frame 1000; Click; Frame 5000] mounted).
Proof.
  apply frame_pending_iff_playing.
  exists [Frame 1000; Click; Frame 5000]. reflexivity.
Defined.

Lemma paused_handle (s : State) (e : Event) :
  isAnimating s = false -> frameRequested s = false ->
  isClick e = false ->
  let s' := handle s e in
  isAnimating s' = false /\ frameRequested s' = false
  /\ angle s' = angle s /\ lastUpdateTimeRef s' = lastUpdateTimeRef s.
Proof.
  intros Hp Hr He. destruct e as [t | | field text]; cbn [handle].
  - rewrite Hr. now repeat split.
  - discriminate.
  - now repeat split.
Qed.

(** X13: while paused the sweep is frozen: from a reachable paused state,
    any sequence of frames and edits (no click) leaves the angle, the
    timestamp marker and the paused flag as they are, and schedules no
    frame. *)
Theorem paused_sweep_frozen (events : list Event) (s : State) :
  reachable s ->
  isAnimating s = false ->
  forallb (fun e => negb (isClick e)) events = true ->
  angle (run events s) = angle s
  /\ lastUpdateTimeRef (run events s) = lastUpdateTimeRef s
  /\ isAnimating (run events s) = false
  /\ frameRequested (run events s) = false.
Proof.
  intros Hreach Hp Hev.
  assert (Hr : frameRequested s = false).
  { apply invariant_reachable in Hreach. destruct Hreach as [_ [_ Hreq]].
    destruct (frameRequested s); [| reflexivity].
    rewrite Hreq in Hp by reflexivity. discriminate. }
  clear Hreach. revert s Hp Hr.
  induction events as [| e events IH]; intros s Hp Hr; [now repeat split |].
  cbn [forallb] in Hev. apply andb_true_iff in Hev as [He Hev].
  apply negb_true_iff in He.
  destruct (paused_handle s e Hp Hr He) as [Hp' [Hr' [Ha Hl]]].
  cbn [run fold_left]. rewrite <- Ha, <- Hl.
  apply (IH Hev); assumption.
Qed.

Lemma paused_sweep_frozen_witness :
  angle (run [Frame 7000; Change FnormalX "3.5"; Frame 9000]
             (run [Frame 1000; Click] mounted))
  = angle (run [Frame 1000; Click] mounted).
Proof.
  apply (paused_sweep_frozen
           [Frame 7000; Change FnormalX "3.5"; Frame 9000]
           (run [Frame 1000; Click] mounted)).
  - exists [Frame 1000; Click]. reflexivity.
  - reflexivity.
  - reflexivity.
Defined.

(** X14: an edit and a frame commute, in every state: editing a strain
    during the sweep neither delays nor resets it, and the frame does not
    undo the edit. *)
Theorem edit_commutes_with_frame
  (s : State) (t : R) (field : Field) (text : string) :
  handle (handle s (Change field text)) (Frame t)
  = handle (handle s (Frame t)) (Change field text).
Proof.
  destruct s as [playing st cs a l requested].
  cbn [handle drawMohrCircle frameRequested isAnimating strains
       currentStrains angle lastUpdateTimeRef].
  destruct requested; [| reflexivity].
  unfold animate.
  cbn [cancelAnimationFrame isAnimating strains currentStrains angle
       lastUpdateTimeRef frameRequested].
  destruct playing; reflexivity.
Qed.

Lemma isAnimating_run (events : list Event) (s : State) :
  isAnimating (run events s) = xorb (isAnimating s) (Nat.odd (clicks events)).
Proof.
  revert s. induction events as [| e events IH]; intros s.
  - cbn. now rewrite xorb_false_r.
  - cbn [run fold_left]. change (fold_left handle events (handle s e))
      with (run events (handle s e)).
    rewrite IH. destruct s as [playing st cs a l requested].
    destruct e as [t | | field text]; cbn [clicks handle frameRequested].
    + destruct requested; [| reflexivity].
      unfold animate. cbn [cancelAnimationFrame isAnimating].
      now destruct playing.
    + rewrite Nat.odd_succ, <- Nat.negb_odd.
      unfold togglePlay, animationEffect.
      cbn [cancelAnimationFrame isAnimating strains currentStrains angle
           lastUpdateTimeRef frameRequested].
      destruct playing, (Nat.odd (clicks events)); reflexivity.
    + reflexivity.
Qed.

(** X15: only clicks change the play flag: after any events the component
    is playing exactly when the number of clicks is even, and the button
    reads "Pause" then and "Continue" otherwise. *)
Theorem playing_iff_even_clicks (events : list Event) :
  isAnimating (run events mounted) = Nat.even (clicks events)
  /\ buttonLabel (run events mounted)
     = if Nat.even (clicks events) then "Pause"%string else "Continue"%string.
Proof.
  assert (H : isAnimating (run events mounted) = Nat.even (clicks events)).
  { rewrite isAnimating_run, <- Nat.negb_odd.
    change (isAnimating mounted) with true.
    now destruct (Nat.odd (clicks events)). }
  split; [exact H |]. unfold buttonLabel. now rewrite H.
Qed.

(** X17: while time moves forward the reduction keeps the angle where it
    should be: from an angle in [0, 2 PI) a frame with t >= l gives an
    angle in [0, 2 PI) again, and from a negative angle above -2 PI (as
    after the seed) the angle does not decrease and stays below 2 PI. *)
Theorem forward_frame_range (s : State) (t l a : R) :
  isAnimating s = true ->
  lastUpdateTimeRef s = Fin l -> l <> 0 -> angle s = Fin a ->
  l <= t ->
  exists a' : R,
    angle (animate (Fin t) s) = Fin a'
    /\ (0 <= a < 2 * PI -> 0 <= a' < 2 * PI)
    /\ (- (2 * PI) < a < 0 -> a <= a' < 2 * PI).
Proof.
  intros Hp Hl Hne Ha Hle.
  rewrite (animate_recorded s t l) by assumption. cbn [angle].
  rewrite Ha, ANGLE_PER_MS_value, two_PI. cbn [mul add].
  rewrite rem_two_PI. eexists; split; [reflexivity |].
  pose proof two_PI_pos as Hpos.
  assert (Hd : 0 <= 2 * PI / 30000 * (t - l)).
  { apply Rmult_le_pos; [| lra].
    apply Rmult_le_pos; [lra |]. left. apply Rinv_0_lt_compat. lra. }
  set (d := 2 * PI / 30000 * (t - l)) in *.
  split.
  - intros Hr. apply (Rrem_sign (a + d) (2 * PI) Hpos). lra.
  - intros Hr. destruct (Rlt_dec (a + d) 0) as [Hn | Hn].
    + rewrite Rrem_small by lra. lra.
    + destruct (Rrem_sign (a + d) (2 * PI) Hpos) as [H _].
      specialize (H ltac:(lra)). lra.
Qed.

Lemma forward_frame_range_witness :
  exists a' : R,
    angle (animate (Fin 1016)
             (mkState true (strains initial) (currentStrains initial)
                      (Fin 1) (Fin 1000) true))
    = Fin a'
    /\ (0 <= 1 < 2 * PI -> 0 <= a' < 2 * PI)
    /\ (- (2 * PI) < 1 < 0 -> 1 <= a' < 2 * PI).
Proof.
  apply (forward_frame_range
           (mkState true (strains initial) (currentStrains initial)
                    (Fin 1) (Fin 1000) true) 1016 1000 1);
    try reflexivity; lra.
Defined.

(** * Further properties of the edit handler *)

(** X18: whatever the text, the edited field never becomes NaN. *)
Theorem handleInputChange_never_NaN
  (text : string) (field : Field) (prev : Strains) :
  isNaN (getField field (handleInputChange text field prev)) = false.
Proof.
  unfold handleInputChange. rewrite getField_setField.
  now destruct (parseFloat text).
Qed.

(** X19: a later edit of a field overrides an earlier edit of the same
    field. *)
Theorem handleInputChange_last_wins
  (text1 text2 : string) (field : Field) (prev : Strains) :
  handleInputChange text2 field (handleInputChange text1 field prev)
  = handleInputChange text2 field prev.
Proof. now destruct field. Qed.

(** X20: edits of two different fields can be made in either order. *)
Theorem handleInputChange_commute
  (text1 text2 : string) (field1 field2 : Field) (prev : Strains) :
  field1 <> field2 ->
  handleInputChange text1 field1 (handleInputChange text2 field2 prev)
  = handleInputChange text2 field2 (handleInputChange text1 field1 prev).
Proof.
  intros Hne. destruct field1, field2; try reflexivity; now elim Hne.
Qed.

Lemma handleInputChange_commute_witness :
  handleInputChange "3.5" FnormalX
    (handleInputChange "abc" FshearXY (strains initial))
  = handleInputChange "abc" FshearXY
      (handleInputChange "3.5" FnormalX (strains initial)).
Proof. apply handleInputChange_commute. discriminate. Defined.

Lemma trimStart_whitespace (text : string) :
  forallb isWhiteSpace (list_ascii_of_string text) = true ->
  trimStart text = EmptyString.
Proof.
  induction text as [| c text IH]; cbn [list_ascii_of_string forallb trimStart];
    [reflexivity |].
  intros H. apply andb_true_iff in H as [Hc Ht].
  rewrite Hc. now apply IH.
Qed.

(** X21: a text that is empty or made of white space only, as when the
    field is cleared, sets the edited field to 0. *)
Theorem handleInputChange_blank
  (text : string) (field : Field) (prev : Strains) :
  forallb isWhiteSpace (list_ascii_of_string text) = true ->
  parseFloat text = NaN
  /\ getField field (handleInputChange text field prev) = Fin 0.
Proof.
  intros H.
  assert (E : parseFloat text = NaN).
  { unfold parseFloat. now rewrite trimStart_whitespace. }
  split; [exact E |].
  unfold handleInputChange. now rewrite getField_setField, E.
Qed.

Lemma handleInputChange_blank_witness :
  getField FnormalY (handleInputChange "  " FnormalY (strains initial)) = Fin 0.
Proof. apply handleInputChange_blank. reflexivity. Defined.

Lemma initial_strains_not_NaN (field : Field) :
  isNaN (getField field (strains initial)) = false.
Proof. rewrite initial_strains. now destruct field. Qed.

(** X22: NaN never reaches the strains: in every reachable state none of
    the three strains is NaN. *)
Theorem reachable_strains_not_NaN (s : State) (field : Field) :
  reachable s -> isNaN (getField field (strains s)) = false.
Proof.
  intros Hs. revert field. revert s Hs.
  apply (reachable_induction
           (fun s => forall field, isNaN (getField field (strains s)) = false)).
  - exact initial_strains_not_NaN.
  - intros s e H field. destruct e as [t | | field' text]; cbn [handle].
    + destruct (frameRequested s); [| apply H].
      unfold animate. cbn [cancelAnimationFrame isAnimating].
      destruct (isAnimating s); apply H.
    + unfold togglePlay, animationEffect.
      cbn [cancelAnimationFrame isAnimating strains currentStrains angle
           lastUpdateTimeRef frameRequested].
      destruct (negb (isAnimating s)); apply H.
    + cbn [drawMohrCircle strains].
      unfold handleInputChange.
      destruct field, field'; cbn [getField setField normalX normalY shearXY];
        try apply (H FnormalX); try apply (H FnormalY); try apply (H FshearXY);
        now destruct (parseFloat text).
Qed.

Lemma reachable_strains_not_NaN_witness :
  isNaN (getField FnormalX
           (strains (run [Change FnormalX "abc"; Frame 1000] mounted)))
  = false.
Proof.
  apply reachable_strains_not_NaN.
  exists [Change FnormalX "abc"; Frame 1000]. reflexivity.
Defined.

(** * Further properties of the readouts and of resizing *)

Lemma degrees_Fin (a : R) :
  div (mul (Fin a) (Fin 180)) Math.PI = Fin (a * 180 / PI).
Proof.
  cbn [mul Math.PI]. apply div_Fin. pose proof PI_RGT_0. lra.
Qed.

(** X23: in every reachable state the angle readout (before rounding) is
    a finite number of degrees strictly between -360 and 360, and the
    shear readout is that number plus 90; when mounted the angle readout is
    -2.38. *)
Theorem readouts_in_range (s : State) :
  reachable s ->
  angleReadout mounted = Fin (-2.38)
  /\ exists d : R,
      angleReadout s = Fin d
      /\ shearAngleReadout s = Fin (d + 90)
      /\ -360 < d < 360.
Proof.
  intros Hs. pose proof PI_RGT_0 as Hpi. split.
  - unfold angleReadout.
    change (angle mounted) with (angle initial).
    rewrite initial_angle, degrees_Fin. f_equal. field. lra.
  - apply invariant_reachable in Hs. destruct Hs as [[a [Ha Hb]] _].
    exists (a * 180 / PI). unfold angleReadout, shearAngleReadout.
    rewrite Ha, degrees_Fin. repeat split.
    + apply Rmult_lt_reg_r with PI; [exact Hpi |].
      replace (a * 180 / PI * PI) with (a * 180) by (field; lra). lra.
    + apply Rmult_lt_reg_r with PI; [exact Hpi |].
      replace (a * 180 / PI * PI) with (a * 180) by (field; lra). lra.
Qed.

Lemma readouts_in_range_witness :
  exists d : R,
    angleReadout (run [Frame 1000; Frame 1016] mounted) = Fin d
    /\ shearAngleReadout (run [Frame 1000; Frame 1016] mounted) = Fin (d + 90)
    /\ -360 < d < 360.
Proof.
  apply (readouts_in_range (run [Frame 1000; Frame 1016] mounted)).
  exists [Frame 1000; Frame 1016]. reflexivity.
Defined.

Lemma strains_after_edit :
  strains (run [Change FnormalX "3.5"] mounted)
  = mkStrains (Fin 3.5) (Fin 0.2) (Fin 0.905).
Proof.
  cbn [run fold_left handle drawMohrCircle strains].
  change (strains mounted) with (strains initial).
  rewrite initial_strains. unfold handleInputChange.
  now rewrite parseFloat_3_5.
Qed.

Lemma cos_initial_angle_pos : 0 < cos (-2.38 * PI / 180).
Proof. pose proof PI_RGT_0. apply cos_gt_0; lra. Qed.

(** X24: a resize never changes the strains, the angle, the play flag, the
    timestamp marker or the pending frame, and does nothing while the refs
    are empty; but its redraw is the one of the first render, so it
    publishes the point of the mounted state again: after the edit of
    normalX to 3.5 the published pair, correct before the resize, is no
    longer the point of the current strains and angle after it. *)
Theorem resize_republishes_mount_point :
  (forall s : State,
      strains (updateCanvasSize true s) = strains s
      /\ angle (updateCanvasSize true s) = angle s
      /\ isAnimating (updateCanvasSize true s) = isAnimating s
      /\ lastUpdateTimeRef (updateCanvasSize true s) = lastUpdateTimeRef s
      /\ frameRequested (updateCanvasSize true s) = frameRequested s
      /\ currentStrains (updateCanvasSize true s) = currentStrains mounted
      /\ updateCanvasSize false s = s)
  /\ (let s := run [Change FnormalX "3.5"] mounted in
      reachable s
      /\ currentStrains s = calculateCurrentStrains (strains s) (angle s)
      /\ currentStrains (updateCanvasSize true s)
         <> calculateCurrentStrains (strains s) (angle s)).
Proof.
  split; [intros s; now repeat split |].
  intros s.
  assert (Hreach : reachable s)
    by (exists [Change FnormalX "3.5"]; reflexivity).
  split; [exact Hreach |]. split; [reflexivity |].
  cbn [updateCanvasSize currentStrains].
  unfold s at 1. rewrite strains_after_edit.
  change (angle s) with (angle initial).
  rewrite initial_strains, initial_angle, !calculateCurrentStrains_Fin.
  intros E.
  assert (En : (2.0 + 0.2) / 2
               + sqrt (((2.0 - 0.2) / 2) ^ 2 + 0.905 ^ 2)
                 * cos (-2.38 * PI / 180)
               = (3.5 + 0.2) / 2
                 + sqrt (((3.5 - 0.2) / 2) ^ 2 + 0.905 ^ 2)
                   * cos (-2.38 * PI / 180)) by congruence.
  clear E. pose proof cos_initial_angle_pos as Hcos.
  assert (Hr : sqrt (((2.0 - 0.2) / 2) ^ 2 + 0.905 ^ 2)
               <= sqrt (((3.5 - 0.2) / 2) ^ 2 + 0.905 ^ 2))
    by (apply sqrt_le_1_alt; lra).
  nra.
Qed.

(** X26: pausing and resuming at once, or resuming and pausing, moves
    nothing: two clicks in a row leave the play flag, the strains, the
    published pair and the angle as they were, and reset the timestamp
    marker to 0. *)
Theorem double_click (s : State) :
  let s' := handle (handle s Click) Click in
  isAnimating s' = isAnimating s
  /\ strains s' = strains s
  /\ currentStrains s' = currentStrains s
  /\ angle s' = angle s
  /\ lastUpdateTimeRef s' = Fin 0
  /\ frameRequested s' = isAnimating s.
Proof.
  destruct s as [playing st cs a l requested].
  destruct playing; cbn; now repeat split.
Qed.
